(** * State-based CRDTs of [include/crdt/crdt.hpp]

    A shallow embedding of the header's four implemented class templates
    ([gcounter], [pncounter], [grow_only_set], [two_phase_set]) and the
    algebraic and functional properties of their member functions.  The
    fifth template, [observe_remove_set], is an empty class: it has no
    state and no member to embed.

    Conventions.
    - [std::array<T, Nodes>] is a [list Z] of length [Nodes]; the class
      templates are instantiated at their default [T = uint32_t], so slot
      values live in [0, 2^32) and every [+] and [-] on them is taken
      modulo [2^32].
    - [std::unordered_set<T>] is a [gset T]; its [operator==] is set
      equality, which for [gset] is Leibniz equality.
    - member functions that mutate [*this] return the new receiver. *)

From stdpp Require Import base numbers list gmap sets strings.

Local Open Scope Z_scope.

(** Arithmetic of the default slot type [uint32_t]. *)
Definition modulus : Z := 2 ^ 32.

Definition wrap (z : Z) : Z := z mod modulus.

Definition uint32 (z : Z) : Prop := 0 ≤ z < modulus.

(** [std::accumulate(first, last, value_type(0))] over a range of
    [uint32_t]: the running sum is itself a [uint32_t]. *)
Definition accumulate (range : list Z) : Z :=
  foldl (λ acc x, wrap (acc + x)) (wrap 0) range.

(** How a call ends for its caller.  The header declares no exception and
    no error code; the three error kinds are the ones the design document
    names, so that its failure clauses can be stated against the code. *)
Inductive error : Set := InvalidIndex | IncompatibleShape | ElementNotObserved.

Inductive outcome (A : Type) : Type :=
  | Returned (a : A)
  | Failed (e : error).
Arguments Returned {A} a.
Arguments Failed {A} e.

(** ** [template <size_t Nodes, typename T = uint32_t> class gcounter] *)
Module gcounter.

(** The only data member: [std::array<value_type, size> _payload]. *)
Abbreviation t := (list Z).

Section Nodes.
Variable Nodes : nat.

(** [static constexpr size_type size = Nodes]. *)
Definition size : nat := Nodes.

(** Shape of an object of the class: exactly [size] slots of [uint32_t]. *)
Definition wf (c : t) : Prop := length c = size ∧ Forall uint32 c.

(** The class declares no constructor and [_payload] has no default
    member initialiser.  [zero] is the value-initialised object
    ([gcounter<Nodes>{}], or one of static storage duration). *)
Definition zero : t := replicate size 0.

(** [void increment(size_type index) noexcept]:
    [if (index < size) _payload[index] += 1;] *)
Definition increment (self : t) (index : nat) : t :=
  if bool_decide (index < size)%nat
  then <[index := wrap (self !!! index + 1)]> self
  else self.

(** [value_type value() const]:
    [std::accumulate(_payload.begin(), _payload.end(), value_type(0))]. *)
Definition value (self : t) : Z := accumulate self.

(** What the caller of [increment] observes: the function is [void] and
    [noexcept], so every call returns, with the receiver it leaves. *)
Definition call_increment (self : t) (index : nat) : outcome t :=
  Returned (increment self index).

(** [k] successive calls [increment(index)]. *)
Definition increment_times (k : N) (index : nat) (self : t) : t :=
  N.iter k (λ c, increment c index) self.

(** Body of the loop of [merge]:
    [_payload[i] = std::max(_payload[i], other._payload[i])]. *)
Definition merge_slot (other self : t) (i : nat) : t :=
  <[i := Z.max (self !!! i) (other !!! i)]> self.

(** [void merge(const gcounter& other)]:
    [for (size_type i = 0; i < size; ++i) ...]. *)
Definition merge (self other : t) : t :=
  foldl (merge_slot other) self (seq 0 size).

(** [a.merge(a)]: [other] is then a reference to the receiver itself, so
    each round reads both operands from the array it writes. *)
Definition merge_self (self : t) : t :=
  foldl (λ acc i, merge_slot acc acc i) self (seq 0 size).

(** Body of the loop of [operator<=]:
    [is_less_than_or_equals &= (_payload[i] <= other._payload[i])]. *)
Definition le_slot (self other : t) (acc : bool) (i : nat) : bool :=
  acc && bool_decide (self !!! i ≤ other !!! i).

(** [bool operator<=(const gcounter& other) const]: the accumulator is
    declared [bool is_less_than_or_equals = false]. *)
Definition le (self other : t) : bool :=
  foldl (le_slot self other) false (seq 0 size).

End Nodes.
End gcounter.


(** ** [template <size_t Nodes, typename T = uint32_t> class pncounter] *)
Module pncounter.

Record t : Type := mk {
  _increment_counter : gcounter.t;
  _decrement_counter : gcounter.t
}.

Section Nodes.
Variable Nodes : nat.

Definition size : nat := Nodes.

Definition wf (p : t) : Prop :=
  gcounter.wf Nodes (_increment_counter p) ∧
  gcounter.wf Nodes (_decrement_counter p).

(** Both members value-initialised, as for [gcounter.zero]. *)
Definition zero : t := mk (gcounter.zero Nodes) (gcounter.zero Nodes).

(** [if (index < size) _increment_counter.increment(index);] *)
Definition increment (self : t) (index : nat) : t :=
  if bool_decide (index < size)%nat
  then mk (gcounter.increment Nodes (_increment_counter self) index)
          (_decrement_counter self)
  else self.

(** [if (index < size) _decrement_counter.increment(index);] *)
Definition decrement (self : t) (index : nat) : t :=
  if bool_decide (index < size)%nat
  then mk (_increment_counter self)
          (gcounter.increment Nodes (_decrement_counter self) index)
  else self.

(** [value_type value() const]: the difference of the two
    [std::accumulate] sums, computed and returned as [value_type].
    (The body spells the ranges [_increment_counter.begin()] and so on;
    the range of a [gcounter] is its [_payload].) *)
Definition value (self : t) : Z :=
  wrap (accumulate (_increment_counter self) -
        accumulate (_decrement_counter self)).

Definition merge (self other : t) : t :=
  mk (gcounter.merge Nodes (_increment_counter self) (_increment_counter other))
     (gcounter.merge Nodes (_decrement_counter self) (_decrement_counter other)).

(** [p.merge(p)]: each member is merged with itself. *)
Definition merge_self (self : t) : t :=
  mk (gcounter.merge_self Nodes (_increment_counter self))
     (gcounter.merge_self Nodes (_decrement_counter self)).

(** [operator<=]: the conjunction of the two members' [operator<=].
    (The parameter is declared [const gcounter&]; the body reads the two
    members of a [pncounter] from it.) *)
Definition le (self other : t) : bool :=
  gcounter.le Nodes (_increment_counter self) (_increment_counter other) &&
  gcounter.le Nodes (_decrement_counter self) (_decrement_counter other).

End Nodes.
End pncounter.


(** ** [template <typename T, typename SetType = std::unordered_set<T>>
       class grow_only_set] *)
Module grow_only_set.

(** [std::includes(first1, last1, first2, last2)] as the standard library
    implements it: one pass over both ranges, comparing with [operator<],
    meaningful only when both ranges are sorted by it. *)
Fixpoint std_includes {T : Type} (less : T → T → bool)
    (range1 range2 : list T) {struct range1} : bool :=
  match range2, range1 with
  | [], _ => true
  | _ :: _, [] => false
  | y :: rest2, x :: rest1 =>
      if less y x then false
      else if less x y then std_includes less rest1 range2
      else std_includes less rest1 rest2
  end.

Section Elements.
Context `{Countable T}.

(** [operator<] on [T], which [std::includes] calls. *)
Variable less : T → T → bool.

(** [grow_only_set() : _data({})]. *)
Definition empty : gset T := ∅.

(** [void add(T&& _elem)]: [_data.emplace(...)]. *)
Definition add (self : gset T) (elem : T) : gset T := {[elem]} ∪ self.

(** [void merge(const grow_only_set& other)]:
    [_data.insert(other.begin(), other.end())], one insertion per element
    of [other]. *)
Definition merge (self other : gset T) : gset T :=
  set_fold (λ elem acc, {[elem]} ∪ acc) self other.

(** [bool query(const T& elem)]:
    [std::find(_data.begin(), _data.end(), elem) != _data.end()]. *)
Definition query (self : gset T) (elem : T) : bool :=
  bool_decide (elem ∈ elements self).

(** [bool includes(const grow_only_set& otherset) const]: the body is the
    single expression statement [std::includes(...);] with no [return], so
    the call computes a boolean and hands none back ([None]). *)
Definition includes (self otherset : gset T) : option bool :=
  let _ := std_includes less (elements self) (elements otherset) in None.

(** [bool operator<=(const grow_only_set& other) const]:
    [return includes(other);] *)
Definition le (self other : gset T) : option bool := includes self other.

End Elements.
End grow_only_set.

(** ** [template <typename T, typename SetType = std::unordered_set<T>>
       class two_phase_set] *)
Module two_phase_set.

Record t (T : Type) `{Countable T} : Type := mk {
  _add_set : gset T;
  _rem_set : gset T
}.
Arguments mk {T _ _} _add_set _rem_set.
Arguments _add_set {T _ _} _.
Arguments _rem_set {T _ _} _.

Section Elements.
Context `{Countable T}.

(** [operator<] on [T], reached through [grow_only_set::includes]. *)
Variable less : T → T → bool.

(** Both members default-constructed. *)
Definition empty : t T := mk grow_only_set.empty grow_only_set.empty.

(** [void add(T&& elem)]: [_add_set.add(...)]. *)
Definition add (self : t T) (elem : T) : t T :=
  mk (grow_only_set.add (_add_set self) elem) (_rem_set self).

(** [void remove(const T& elem)]:
    [if (_add_set.query(elem)) _rem_set.add(elem);] *)
Definition remove (self : t T) (elem : T) : t T :=
  if grow_only_set.query (_add_set self) elem
  then mk (_add_set self) (grow_only_set.add (_rem_set self) elem)
  else self.

(** [void merge(const two_phase_set& other)]. *)
Definition merge (self other : t T) : t T :=
  mk (grow_only_set.merge (_add_set self) (_add_set other))
     (grow_only_set.merge (_rem_set self) (_rem_set other)).

(** [bool operator<=(const two_phase_set& other)]:
    [(_add_set <= other._add_set) && (_rem_set <= other._rem_set)]; the
    right operand is evaluated only when the left one is [true]. *)
Definition le (self other : t T) : option bool :=
  match grow_only_set.le less (_add_set self) (_add_set other) with
  | Some true => grow_only_set.le less (_rem_set self) (_rem_set other)
  | Some false => Some false
  | None => None
  end.

(** [SetType value() const]: the body is the comment [// TODO] alone; the
    call hands back no set ([None]). *)
Definition value (self : t T) : option (gset T) := None.

End Elements.
End two_phase_set.

(** ** Vocabulary of the properties *)

(** The join-semilattice laws of a [merge] over the states satisfying
    [reachable], with [=] the structural equality of the states. *)
Record semilattice_merge {A : Type} (reachable : A → Prop)
    (merge : A → A → A) : Prop := {
  merge_closed a b : reachable a → reachable b → reachable (merge a b);
  merge_idempotent a : reachable a → merge a a = a;
  merge_commutative a b : reachable a → reachable b → merge a b = merge b a;
  merge_associative a b c :
    reachable a → reachable b → reachable c →
    merge (merge a b) c = merge a (merge b c)
}.

(** Membership in a two-phase set as the design document defines it:
    [adds.contains(elem) ∧ ¬removes.contains(elem)].  The class has no
    member of that name; this reads its two members. *)
Definition logical_member `{Countable T} (s : two_phase_set.t T) (elem : T) : bool :=
  grow_only_set.query (two_phase_set._add_set s) elem &&
  negb (grow_only_set.query (two_phase_set._rem_set s) elem).

(** The exact sum of a range, before any reduction. *)
Definition total (range : list Z) : Z := foldr Z.add 0 range.

(** The states a replica can hold: the initial one, moved by the class's
    mutating members and by [merge] with another such state. *)
Inductive gcounter_reachable (Nodes : nat) : list Z → Prop :=
  | gcounter_reach_zero : gcounter_reachable Nodes (gcounter.zero Nodes)
  | gcounter_reach_increment c index :
      gcounter_reachable Nodes c →
      gcounter_reachable Nodes (gcounter.increment Nodes c index)
  | gcounter_reach_merge c other :
      gcounter_reachable Nodes c → gcounter_reachable Nodes other →
      gcounter_reachable Nodes (gcounter.merge Nodes c other).

Inductive pncounter_reachable (Nodes : nat) : pncounter.t → Prop :=
  | pncounter_reach_zero : pncounter_reachable Nodes (pncounter.zero Nodes)
  | pncounter_reach_increment p index :
      pncounter_reachable Nodes p →
      pncounter_reachable Nodes (pncounter.increment Nodes p index)
  | pncounter_reach_decrement p index :
      pncounter_reachable Nodes p →
      pncounter_reachable Nodes (pncounter.decrement Nodes p index)
  | pncounter_reach_merge p other :
      pncounter_reachable Nodes p → pncounter_reachable Nodes other →
      pncounter_reachable Nodes (pncounter.merge Nodes p other).

Inductive two_phase_set_reachable `{Countable T} : two_phase_set.t T → Prop :=
  | two_phase_set_reach_empty : two_phase_set_reachable two_phase_set.empty
  | two_phase_set_reach_add s elem :
      two_phase_set_reachable s →
      two_phase_set_reachable (two_phase_set.add s elem)
  | two_phase_set_reach_remove s elem :
      two_phase_set_reachable s →
      two_phase_set_reachable (two_phase_set.remove s elem)
  | two_phase_set_reach_merge s other :
      two_phase_set_reachable s → two_phase_set_reachable other →
      two_phase_set_reachable (two_phase_set.merge s other).

(** ** Arithmetic modulo [2^32] *)

Lemma modulus_pos : 0 < modulus.
Proof. reflexivity. Qed.

Lemma wrap_range z : uint32 (wrap z).
Proof. apply Z.mod_pos_bound, modulus_pos. Qed.

Lemma wrap_small z : uint32 z → wrap z = z.
Proof. intros Hz. apply Z.mod_small, Hz. Qed.

Lemma wrap_wrap z : wrap (wrap z) = wrap z.
Proof. apply wrap_small, wrap_range. Qed.

Lemma wrap_add_l a b : wrap (wrap a + b) = wrap (a + b).
Proof. apply Zplus_mod_idemp_l. Qed.

Lemma wrap_add_r a b : wrap (a + wrap b) = wrap (a + b).
Proof. apply Zplus_mod_idemp_r. Qed.

Lemma accumulate_from a range :
  foldl (λ acc x, wrap (acc + x)) (wrap a) range = wrap (a + total range).
Proof.
  revert a. induction range as [|x range IH]; intros a; simpl.
  - by rewrite Z.add_0_r.
  - rewrite wrap_add_l, IH. f_equal. lia.
Qed.

Lemma accumulate_total range : accumulate range = wrap (total range).
Proof. unfold accumulate. by rewrite accumulate_from. Qed.

Lemma accumulate_range range : uint32 (accumulate range).
Proof. rewrite accumulate_total. apply wrap_range. Qed.

Lemma total_insert (c : list Z) (i : nat) (v : Z) :
  (i < length c)%nat → total (<[i := v]> c) = total c - c !!! i + v.
Proof.
  revert i. induction c as [|x c IH]; intros [|i] Hi; simpl in *; try lia.
  rewrite IH by lia. unfold total. simpl. lia.
Qed.

Lemma total_replicate n : total (replicate n 0) = 0.
Proof. induction n as [|n IH]; simpl; [done|]. unfold total in *. simpl. lia. Qed.

(** ** [gcounter]: the loops of [merge] and [operator<=] *)

Lemma gcounter_merge_step other self n :
  foldl (gcounter.merge_slot other) self (seq 0 (S n)) =
  gcounter.merge_slot other (foldl (gcounter.merge_slot other) self (seq 0 n)) n.
Proof. by rewrite seq_S, foldl_app. Qed.

Lemma gcounter_merge_prefix_length other self n :
  length (foldl (gcounter.merge_slot other) self (seq 0 n)) = length self.
Proof.
  induction n as [|n IH]; [done|].
  rewrite gcounter_merge_step. unfold gcounter.merge_slot at 1.
  by rewrite length_insert.
Qed.

(** After [n] rounds of the loop the slots below [n] hold the maximum and
    the others are untouched. *)
Lemma gcounter_merge_prefix_lookup other self n j :
  (n ≤ length self)%nat →
  foldl (gcounter.merge_slot other) self (seq 0 n) !! j =
    if bool_decide (j < n)%nat
    then Some (Z.max (self !!! j) (other !!! j))
    else self !! j.
Proof.
  revert j. induction n as [|n IH]; intros j Hn.
  - rewrite bool_decide_eq_false_2 by lia. done.
  - rewrite gcounter_merge_step. unfold gcounter.merge_slot at 1.
    assert (Hacc : foldl (gcounter.merge_slot other) self (seq 0 n) !!! n
                   = self !!! n).
    { rewrite !list_lookup_total_alt, IH by lia.
      by rewrite bool_decide_eq_false_2 by lia. }
    rewrite Hacc.
    destruct (decide (j = n)) as [->|Hne].
    + rewrite list_lookup_insert_eq
        by (rewrite gcounter_merge_prefix_length; lia).
      by rewrite bool_decide_eq_true_2 by lia.
    + rewrite list_lookup_insert_ne, IH by lia.
      destruct (decide (j < n)%nat).
      * by rewrite !bool_decide_eq_true_2 by lia.
      * by rewrite !bool_decide_eq_false_2 by lia.
Qed.

(** On two arrays of the same size the loop is the slot-wise maximum. *)
Lemma gcounter_merge_zip Nodes (self other : list Z) :
  length self = Nodes → length other = Nodes →
  gcounter.merge Nodes self other = zip_with Z.max self other.
Proof.
  intros Hs Ho. apply list_eq; intros j.
  unfold gcounter.merge, gcounter.size.
  rewrite gcounter_merge_prefix_lookup, lookup_zip_with by lia.
  case_bool_decide as Hj.
  - rewrite (list_lookup_lookup_total_lt self j) by lia.
    rewrite (list_lookup_lookup_total_lt other j) by lia. done.
  - by rewrite (lookup_ge_None_2 self j) by lia.
Qed.

Lemma zip_max_idempotent (a : list Z) : zip_with Z.max a a = a.
Proof. induction a as [|x a IH]; simpl; [done|]. by rewrite IH, Z.max_id. Qed.

Lemma zip_max_commutative (a b : list Z) :
  zip_with Z.max a b = zip_with Z.max b a.
Proof.
  revert b. induction a as [|x a IH]; intros [|y b]; simpl; try done.
  by rewrite IH, Z.max_comm.
Qed.

Lemma zip_max_associative (a b c : list Z) :
  zip_with Z.max (zip_with Z.max a b) c = zip_with Z.max a (zip_with Z.max b c).
Proof.
  revert b c. induction a as [|x a IH]; intros [|y b] [|z c]; simpl; try done.
  by rewrite IH, Z.max_assoc.
Qed.

Lemma zip_max_uint32 (a b : list Z) :
  Forall uint32 a → Forall uint32 b → Forall uint32 (zip_with Z.max a b).
Proof.
  intros Ha. revert b. induction Ha as [|x a Hx Ha IH]; intros b Hb; simpl.
  - constructor.
  - destruct Hb as [|y b Hy Hb]; constructor; [|by apply IH].
    unfold uint32 in *. lia.
Qed.

Lemma gcounter_merge_wf Nodes a b :
  gcounter.wf Nodes a → gcounter.wf Nodes b →
  gcounter.wf Nodes (gcounter.merge Nodes a b).
Proof.
  intros [La Ua] [Lb Ub]. unfold gcounter.size in *.
  rewrite gcounter_merge_zip by done. split.
  - rewrite length_zip_with. unfold gcounter.size. lia.
  - by apply zip_max_uint32.
Qed.

Lemma gcounter_merge_slot_self (acc : list Z) i :
  gcounter.merge_slot acc acc i = acc.
Proof.
  unfold gcounter.merge_slot. rewrite Z.max_id.
  destruct (decide (i < length acc)%nat) as [Hi|Hi].
  - apply list_insert_id. by apply list_lookup_lookup_total_lt.
  - apply list_insert_ge. lia.
Qed.

Lemma gcounter_merge_self_id Nodes (self : list Z) :
  gcounter.merge_self Nodes self = self.
Proof.
  unfold gcounter.merge_self. generalize (seq 0 (gcounter.size Nodes)).
  intros indices. induction indices as [|i indices IH]; [done|].
  cbn [foldl]. by rewrite gcounter_merge_slot_self.
Qed.

Lemma gcounter_semilattice Nodes :
  semilattice_merge (gcounter.wf Nodes) (gcounter.merge Nodes).
Proof.
  split.
  - apply gcounter_merge_wf.
  - intros a [La _]. rewrite gcounter_merge_zip by done.
    apply zip_max_idempotent.
  - intros a b [La _] [Lb _]. rewrite !gcounter_merge_zip by done.
    apply zip_max_commutative.
  - intros a b c [La Ua] [Lb Ub] [Lc Uc]. unfold gcounter.size in *.
    rewrite (gcounter_merge_zip Nodes a b), (gcounter_merge_zip Nodes b c) by done.
    rewrite !gcounter_merge_zip; [apply zip_max_associative|..];
      rewrite ?length_zip_with; lia.
Qed.

(** The accumulator of [operator<=] starts at [false] and is only ever
    and-ed: it is [false] after any number of rounds. *)
Lemma gcounter_le_loop self other (indices : list nat) :
  foldl (gcounter.le_slot self other) false indices = false.
Proof. induction indices as [|i indices IH]; simpl; done. Qed.

Lemma gcounter_le_false Nodes self other : gcounter.le Nodes self other = false.
Proof. apply gcounter_le_loop. Qed.

(** ** [pncounter]: member-wise [merge] *)

Lemma pncounter_merge_self_id Nodes (self : pncounter.t) :
  pncounter.merge_self Nodes self = self.
Proof.
  destruct self as [inc dec]. unfold pncounter.merge_self. simpl.
  by rewrite !gcounter_merge_self_id.
Qed.

Lemma pncounter_semilattice Nodes :
  semilattice_merge (pncounter.wf Nodes) (pncounter.merge Nodes).
Proof.
  pose proof (gcounter_semilattice Nodes) as [Hcl Hid Hco Has].
  split.
  - intros [ai ad] [bi bd] [Hai Had] [Hbi Hbd]. split; simpl in *; by apply Hcl.
  - intros [ai ad] [Hai Had]. unfold pncounter.merge. simpl in *.
    by rewrite Hid, Hid.
  - intros [ai ad] [bi bd] [Hai Had] [Hbi Hbd]. unfold pncounter.merge.
    simpl in *. by rewrite (Hco ai bi), (Hco ad bd).
  - intros [ai ad] [bi bd] [ci cd] [Hai Had] [Hbi Hbd] [Hci Hcd].
    unfold pncounter.merge. simpl in *.
    by rewrite (Has ai bi ci), (Has ad bd cd).
Qed.

(** ** [grow_only_set] and [two_phase_set]: [merge] is set union *)

Lemma grow_only_set_merge_union {T} {EqT : EqDecision T} {CountT : Countable T}
    (self other : gset T) :
  grow_only_set.merge self other = self ∪ other.
Proof.
  unfold grow_only_set.merge.
  apply (set_fold_ind_L (λ acc X, acc = self ∪ X)).
  - by rewrite (right_id_L ∅ (∪)).
  - intros elem X acc _ ->.
    by rewrite !(assoc_L (∪)), (comm_L (∪) {[elem]} self).
Qed.

Lemma grow_only_set_semilattice {T} {EqT : EqDecision T} {CountT : Countable T} :
  semilattice_merge (λ _ : gset T, True) grow_only_set.merge.
Proof.
  split; try done.
  - intros a _. rewrite grow_only_set_merge_union. apply (idemp_L (∪)).
  - intros a b _ _. rewrite !grow_only_set_merge_union. apply (comm_L (∪)).
  - intros a b c _ _ _. rewrite !grow_only_set_merge_union.
    symmetry. apply (assoc_L (∪)).
Qed.

Lemma two_phase_set_semilattice {T} {EqT : EqDecision T} {CountT : Countable T} :
  semilattice_merge (λ _ : two_phase_set.t T, True) two_phase_set.merge.
Proof.
  pose proof (grow_only_set_semilattice (T := T)) as [_ Hid Hco Has].
  split; try done.
  - intros [a r] _. unfold two_phase_set.merge. simpl.
    by rewrite !Hid.
  - intros [a r] [a' r'] _ _. unfold two_phase_set.merge. simpl.
    by rewrite (Hco a a'), (Hco r r').
  - intros [a r] [a' r'] [a'' r''] _ _ _. unfold two_phase_set.merge. simpl.
    by rewrite (Has a a' a''), (Has r r' r'').
Qed.

(** C1. For each of the four class templates that implement [merge]
    ([gcounter], [pncounter], [grow_only_set], [two_phase_set]) and all
    states of the class (counters: [Nodes] slots of [uint32_t]; sets: any
    finite set), [merge] stays within the states, is idempotent
    ([merge a a = a]), commutative ([merge a b = merge b a]) and associative
    ([merge (merge a b) c = merge a (merge b c)]); the counters' [a.merge(a)]
    with the argument aliasing the receiver also leaves [a] as it is. *)
Theorem merge_is_semilattice :
  (∀ Nodes, semilattice_merge (gcounter.wf Nodes) (gcounter.merge Nodes)) ∧
  (∀ Nodes, semilattice_merge (pncounter.wf Nodes) (pncounter.merge Nodes)) ∧
  (∀ (T : Type) (EqT : EqDecision T) (CountT : Countable T),
     semilattice_merge (λ _ : gset T, True) grow_only_set.merge ∧
     semilattice_merge (λ _ : two_phase_set.t T, True) two_phase_set.merge) ∧
  (∀ Nodes (a : list Z), gcounter.merge_self Nodes a = a) ∧
  (∀ Nodes (p : pncounter.t), pncounter.merge_self Nodes p = p).
Proof.
  split; [apply gcounter_semilattice|].
  split; [apply pncounter_semilattice|].
  split; [|split].
  - intros T EqT CountT. split.
    + apply grow_only_set_semilattice.
    + apply two_phase_set_semilattice.
  - apply gcounter_merge_self_id.
  - apply pncounter_merge_self_id.
Qed.

Lemma merge_is_semilattice_witness :
  gcounter.wf 3 [1; 0; 2] ∧ gcounter.wf 3 [0; 3; 1] ∧
  gcounter.merge 3 [1; 0; 2] [0; 3; 1] = gcounter.merge 3 [0; 3; 1] [1; 0; 2] ∧
  grow_only_set.merge ({[ "x" ]} : gset string) {[ "y" ]} =
    grow_only_set.merge ({[ "y" ]} : gset string) {[ "x" ]}.
Proof.
  assert (Ha : gcounter.wf 3 [1; 0; 2]).
  { split; [reflexivity|]. repeat constructor; unfold uint32, modulus; lia. }
  assert (Hb : gcounter.wf 3 [0; 3; 1]).
  { split; [reflexivity|]. repeat constructor; unfold uint32, modulus; lia. }
  destruct merge_is_semilattice as (Hg & _ & Hs & _).
  split; [exact Ha|]. split; [exact Hb|]. split.
  - exact (merge_commutative _ _ (Hg 3%nat) _ _ Ha Hb).
  - destruct (Hs string _ _) as [Hgs _].
    exact (merge_commutative _ _ Hgs _ _ I I).
Defined.

(** C6. [gcounter::merge] on two counters of the same size [Nodes] leaves
    in every slot [i] the maximum of the two slots [i]; merging the slot
    vectors [1,0,2] and [0,3,1] yields [1,3,2], whose [value()] is 6. *)
Theorem gcounter_merge_max :
  (∀ Nodes (self other : list Z),
     length self = Nodes → length other = Nodes →
     length (gcounter.merge Nodes self other) = Nodes ∧
     ∀ i, (i < Nodes)%nat →
       gcounter.merge Nodes self other !!! i = Z.max (self !!! i) (other !!! i)) ∧
  gcounter.merge 3 [1; 0; 2] [0; 3; 1] = [1; 3; 2] ∧
  gcounter.value [1; 3; 2] = 6.
Proof.
  split; [|split; reflexivity].
  intros Nodes self other Hs Ho. split.
  - unfold gcounter.merge. by rewrite gcounter_merge_prefix_length.
  - intros i Hi. apply list_lookup_total_correct.
    unfold gcounter.merge, gcounter.size.
    rewrite gcounter_merge_prefix_lookup by lia.
    by rewrite bool_decide_eq_true_2 by lia.
Qed.

Lemma gcounter_merge_max_witness :
  gcounter.merge 3 [4; 0; 2] [0; 9; 1] !!! 1%nat = Z.max 0 9.
Proof.
  destruct gcounter_merge_max as [Hmax _].
  destruct (Hmax 3%nat [4; 0; 2] [0; 9; 1] eq_refl eq_refl) as [_ Hslot].
  apply (Hslot 1%nat). lia.
Defined.

(** C2. On two all-zero counters of three slots every slot of the left
    one is [<=] the matching slot of the right one, yet
    [gcounter::operator<=] answers [false]: its accumulator is seeded with
    [false] and only ever and-ed, so the answer is [false] on every pair
    of counters. *)
Theorem gcounter_le_rejects_equal_counters :
  (∀ i : nat, gcounter.zero 3 !!! i ≤ gcounter.zero 3 !!! i) ∧
  gcounter.le 3 (gcounter.zero 3) (gcounter.zero 3) = false ∧
  (∀ Nodes (self other : list Z), gcounter.le Nodes self other = false).
Proof.
  split; [intros i; lia|]. split; [reflexivity | apply gcounter_le_false].
Qed.

(** ** [gcounter::increment] *)

Lemma gcounter_increment_length Nodes (c : list Z) i :
  length (gcounter.increment Nodes c i) = length c.
Proof.
  unfold gcounter.increment. case_bool_decide; [|done]. by rewrite length_insert.
Qed.

Lemma gcounter_increment_out_of_range Nodes (c : list Z) i :
  (Nodes ≤ i)%nat → gcounter.increment Nodes c i = c.
Proof.
  intros Hi. unfold gcounter.increment, gcounter.size.
  by rewrite bool_decide_eq_false_2 by lia.
Qed.

Lemma gcounter_increment_slot Nodes (c : list Z) i v :
  length c = Nodes → c !! i = Some v →
  gcounter.increment Nodes c i !! i = Some (wrap (v + 1)).
Proof.
  intros Hlen Hv. pose proof (lookup_lt_Some _ _ _ Hv) as Hi.
  unfold gcounter.increment, gcounter.size.
  rewrite bool_decide_eq_true_2 by lia.
  rewrite list_lookup_insert_eq by done.
  by rewrite (list_lookup_total_correct _ _ _ Hv).
Qed.

Lemma gcounter_increment_other Nodes (c : list Z) i j :
  i ≠ j → gcounter.increment Nodes c i !! j = c !! j.
Proof.
  intros Hne. unfold gcounter.increment. case_bool_decide; [|done].
  by rewrite list_lookup_insert_ne.
Qed.

(** Each in-range [increment] moves [value()] one step forward on the
    circle of [uint32_t] values. *)
Lemma gcounter_increment_value Nodes (c : list Z) i :
  length c = Nodes → (i < Nodes)%nat →
  gcounter.value (gcounter.increment Nodes c i) = wrap (gcounter.value c + 1).
Proof.
  intros Hlen Hi. unfold gcounter.value, gcounter.increment, gcounter.size.
  rewrite bool_decide_eq_true_2 by lia.
  rewrite !accumulate_total, total_insert by lia.
  rewrite wrap_add_r, wrap_add_l. f_equal. lia.
Qed.

Lemma gcounter_zero_length Nodes : length (gcounter.zero Nodes) = Nodes.
Proof. apply length_replicate. Qed.

Lemma gcounter_zero_value Nodes : gcounter.value (gcounter.zero Nodes) = 0.
Proof.
  unfold gcounter.value, gcounter.zero.
  by rewrite accumulate_total, total_replicate.
Qed.

Lemma gcounter_increment_times_succ Nodes k i (c : list Z) :
  gcounter.increment_times Nodes (N.succ k) i c =
  gcounter.increment Nodes (gcounter.increment_times Nodes k i c) i.
Proof. unfold gcounter.increment_times. by rewrite N.iter_succ. Qed.

Lemma gcounter_increment_times_length Nodes k i (c : list Z) :
  length (gcounter.increment_times Nodes k i c) = length c.
Proof.
  induction k as [|k IH] using N.peano_ind; [done|].
  by rewrite gcounter_increment_times_succ, gcounter_increment_length.
Qed.

Lemma gcounter_increment_times_value Nodes k i (c : list Z) :
  length c = Nodes → (i < Nodes)%nat →
  gcounter.value (gcounter.increment_times Nodes k i c)
    = wrap (gcounter.value c + Z.of_N k).
Proof.
  intros Hlen Hi.
  induction k as [|k IH] using N.peano_ind.
  - change (gcounter.increment_times Nodes 0 i c) with c.
    rewrite Z.add_0_r. symmetry. apply wrap_small, accumulate_range.
  - rewrite gcounter_increment_times_succ.
    rewrite gcounter_increment_value;
      [|by rewrite gcounter_increment_times_length|done].
    rewrite IH, wrap_add_l. f_equal. lia.
Qed.

(** A run of in-range increments on any slots: [value()] advances by the
    number of calls, modulo [2^32]. *)
Lemma gcounter_increments_value Nodes (indices : list nat) (c : list Z) :
  length c = Nodes → Forall (λ i, (i < Nodes)%nat) indices →
  gcounter.value (foldl (gcounter.increment Nodes) c indices)
    = wrap (gcounter.value c + Z.of_nat (length indices)).
Proof.
  intros Hlen Hall. revert c Hlen.
  induction Hall as [|i indices Hi _ IH]; intros c Hlen.
  - simpl. rewrite Z.add_0_r. symmetry. apply wrap_small, accumulate_range.
  - cbn [foldl length].
    rewrite IH by (by rewrite gcounter_increment_length).
    rewrite gcounter_increment_value, wrap_add_l by done. f_equal. lia.
Qed.

(** C3 as stated fails: [increment(3)] on a three-slot counter does not
    end in [InvalidIndex]; the call returns like any other. *)
Lemma gcounter_increment_never_fails :
  gcounter.call_increment 3 (gcounter.zero 3) 3 ≠ Failed InvalidIndex.
Proof. discriminate. Qed.

(** C3, amended. [increment(index)] with [index >= Nodes] takes the
    guarded-out branch: the call returns normally, reports nothing, and
    leaves the counter as it was. *)
Theorem gcounter_increment_out_of_range_is_silent Nodes (c : list Z) index :
  (Nodes ≤ index)%nat →
  gcounter.call_increment Nodes c index = Returned c.
Proof.
  intros Hi. unfold gcounter.call_increment.
  by rewrite gcounter_increment_out_of_range.
Qed.

Lemma gcounter_increment_out_of_range_is_silent_witness :
  gcounter.call_increment 3 [1; 0; 2] 3 = Returned [1; 0; 2].
Proof. apply gcounter_increment_out_of_range_is_silent. lia. Defined.

(** C9 as stated fails: [2^32] calls of [increment(0)] on a zeroed
    three-slot counter leave [value()] at 0, not at [2^32]. *)
Lemma gcounter_value_after_2_32_increments :
  gcounter.value
    (gcounter.increment_times 3 4294967296 0 (gcounter.zero 3)) ≠ 4294967296.
Proof.
  rewrite gcounter_increment_times_value
    by (rewrite ?gcounter_zero_length; lia).
  rewrite gcounter_zero_value. vm_compute. discriminate.
Qed.

(** C9, amended. Every slot of a value-initialised counter is zero, and
    after [k] calls [increment(i)] with [i < Nodes] on it [value()] is
    [k mod 2^32]; so [value() == k] for every [k < 2^32]. *)
Theorem gcounter_value_counts_increments Nodes (k : N) (i : nat) :
  (i < Nodes)%nat →
  (∀ j, (j < Nodes)%nat → gcounter.zero Nodes !!! j = 0) ∧
  gcounter.value (gcounter.increment_times Nodes k i (gcounter.zero Nodes))
    = wrap (Z.of_N k) ∧
  (Z.of_N k < modulus →
   gcounter.value (gcounter.increment_times Nodes k i (gcounter.zero Nodes))
     = Z.of_N k).
Proof.
  intros Hi.
  assert (Hval : gcounter.value
            (gcounter.increment_times Nodes k i (gcounter.zero Nodes))
          = wrap (Z.of_N k)).
  { rewrite gcounter_increment_times_value
      by (rewrite ?gcounter_zero_length; lia).
    by rewrite gcounter_zero_value. }
  split; [|split].
  - intros j Hj. by apply lookup_total_replicate_2.
  - exact Hval.
  - intros Hk. rewrite Hval. apply wrap_small. unfold uint32. lia.
Qed.

Lemma gcounter_value_counts_increments_witness :
  gcounter.value (gcounter.increment_times 3 5 1 (gcounter.zero 3)) = 5.
Proof.
  destruct (gcounter_value_counts_increments 3 5 1 ltac:(lia)) as (_ & _ & Hk).
  apply Hk. reflexivity.
Defined.

(** C10. With [uint32_t] slots, [increment(index)] turns a slot holding
    [2^32 - 1] into 0 and any smaller slot [v] into [v + 1]; an in-range
    increment of a counter whose [value()] is [2^32 - 1] brings [value()]
    to 0, as on the one-slot counter [[2^32 - 1]], where [value()] drops
    across the call. *)
Theorem gcounter_increment_wraps :
  (∀ Nodes (c : list Z) (i : nat) (v : Z),
     gcounter.wf Nodes c → c !! i = Some v →
     gcounter.increment Nodes c i !! i =
       Some (if bool_decide (v = modulus - 1) then 0 else v + 1)) ∧
  (∀ Nodes (c : list Z) (i : nat),
     gcounter.wf Nodes c → (i < Nodes)%nat →
     gcounter.value c = modulus - 1 →
     gcounter.value (gcounter.increment Nodes c i) = 0) ∧
  (gcounter.wf 1 [modulus - 1] ∧
   gcounter.value (gcounter.increment 1 [modulus - 1] 0)
     < gcounter.value [modulus - 1]).
Proof.
  split; [|split].
  - intros Nodes c i v [Hlen Hall] Hv.
    rewrite (gcounter_increment_slot Nodes c i v) by done. f_equal.
    assert (Hr : uint32 v).
    { rewrite Forall_lookup in Hall. by apply (Hall i). }
    unfold uint32 in Hr. case_bool_decide as Hmax.
    + subst v. reflexivity.
    + apply wrap_small. unfold uint32. lia.
  - intros Nodes c i [Hlen _] Hi Hval.
    rewrite gcounter_increment_value, Hval by done. reflexivity.
  - split; [|reflexivity].
    split; [reflexivity|]. repeat constructor; unfold uint32, modulus; lia.
Qed.

Lemma gcounter_increment_wraps_witness :
  gcounter.increment 2 [7; 4294967295] 1 !! 1%nat = Some 0.
Proof.
  destruct gcounter_increment_wraps as (Hslot & _ & _).
  apply (Hslot 2%nat [7; 4294967295] 1%nat 4294967295).
  - split; [reflexivity|]. repeat constructor; unfold uint32, modulus; lia.
  - reflexivity.
Defined.

(** ** [pncounter::value] *)

Lemma pncounter_value_range (p : pncounter.t) : uint32 (pncounter.value p).
Proof. apply wrap_range. Qed.

(** C8 as stated fails: one [decrement(0)] on a zeroed one-slot counter
    gives [value() = 4294967295], which is neither the difference
    [0 - 1] of the two members' values nor negative. *)
Lemma pncounter_value_after_one_decrement :
  pncounter.value (pncounter.decrement 1 (pncounter.zero 1) 0) ≠
    gcounter.value
      (pncounter._increment_counter
         (pncounter.decrement 1 (pncounter.zero 1) 0)) -
    gcounter.value
      (pncounter._decrement_counter
         (pncounter.decrement 1 (pncounter.zero 1) 0)) ∧
  ¬ pncounter.value (pncounter.decrement 1 (pncounter.zero 1) 0) < 0.
Proof. split; vm_compute; discriminate. Qed.

(** C8, amended. [pncounter::value()] is the increment-counter's value
    minus the decrement-counter's value taken modulo [2^32], hence never
    negative; it is the plain difference whenever the decrement-counter's
    value does not exceed the increment-counter's; after [increment(0)]
    three times and [decrement(0)] once on a zeroed counter it is 2. *)
Theorem pncounter_value_is_wrapped_difference :
  (∀ p : pncounter.t,
     pncounter.value p =
       wrap (gcounter.value (pncounter._increment_counter p) -
             gcounter.value (pncounter._decrement_counter p)) ∧
     0 ≤ pncounter.value p < modulus) ∧
  (∀ p : pncounter.t,
     gcounter.value (pncounter._decrement_counter p)
       ≤ gcounter.value (pncounter._increment_counter p) →
     pncounter.value p =
       gcounter.value (pncounter._increment_counter p) -
       gcounter.value (pncounter._decrement_counter p)) ∧
  (∀ Nodes, (0 < Nodes)%nat →
     pncounter.value
       (pncounter.decrement Nodes
          (pncounter.increment Nodes
             (pncounter.increment Nodes
                (pncounter.increment Nodes (pncounter.zero Nodes) 0) 0) 0) 0)
     = 2).
Proof.
  split; [|split].
  - intros p. split; [reflexivity | apply pncounter_value_range].
  - intros [inc dec] Hle. simpl in *. unfold pncounter.value. simpl.
    apply wrap_small.
    pose proof (accumulate_range inc) as Hi.
    pose proof (accumulate_range dec) as Hd.
    unfold gcounter.value, uint32 in *. lia.
  - intros Nodes HN.
    unfold pncounter.increment, pncounter.decrement, pncounter.size,
      pncounter.zero.
    rewrite !bool_decide_eq_true_2 by lia. simpl.
    unfold pncounter.value. simpl.
    change accumulate with gcounter.value.
    rewrite !gcounter_increment_value, gcounter_zero_value
      by (rewrite ?gcounter_increment_length, ?gcounter_zero_length; lia).
    reflexivity.
Qed.

Lemma pncounter_value_is_wrapped_difference_witness :
  pncounter.value
    (pncounter.decrement 3
       (pncounter.increment 3
          (pncounter.increment 3
             (pncounter.increment 3 (pncounter.zero 3) 0) 0) 0) 0) = 2.
Proof.
  destruct pncounter_value_is_wrapped_difference as (_ & _ & Hex).
  apply (Hex 3%nat). lia.
Defined.

Lemma pncounter_le_false Nodes (self other : pncounter.t) :
  pncounter.le Nodes self other = false.
Proof. unfold pncounter.le. by rewrite gcounter_le_false. Qed.

(** ** [grow_only_set::includes] and [two_phase_set::value] *)

Lemma grow_only_set_query_spec {T} {EqT : EqDecision T} {CountT : Countable T}
    (self : gset T) (elem : T) :
  grow_only_set.query self elem = bool_decide (elem ∈ self).
Proof.
  unfold grow_only_set.query. apply bool_decide_ext, elem_of_elements.
Qed.

Lemma grow_only_set_includes_none {T} {EqT : EqDecision T} {CountT : Countable T}
    (less : T → T → bool) (self otherset : gset T) :
  grow_only_set.includes less self otherset = None.
Proof. reflexivity. Qed.

Lemma two_phase_set_le_none {T} {EqT : EqDecision T} {CountT : Countable T}
    (less : T → T → bool) (self other : two_phase_set.t T) :
  two_phase_set.le less self other = None.
Proof. reflexivity. Qed.

(** The one-pass algorithm depends on the order of its ranges: on a
    first range that is not ascending it misses an element that is there. *)
Example std_includes_unsorted_range :
  grow_only_set.std_includes Z.ltb [2; 1] [1] = false ∧ 1 ∈ [2; 1] ∧
  grow_only_set.std_includes Z.ltb [1; 2] [1] = true.
Proof. split; [reflexivity|]. split; [|reflexivity]. apply list_elem_of_In. simpl. tauto. Qed.

(** Once [elem] is in [_rem_set], adding it again leaves it outside the
    logical set. *)
Lemma two_phase_set_removal_is_permanent
    {T} {EqT : EqDecision T} {CountT : Countable T}
    (s : two_phase_set.t T) (elem : T) :
  elem ∈ two_phase_set._rem_set s →
  logical_member (two_phase_set.add s elem) elem = false.
Proof.
  intros Hrem. unfold logical_member, two_phase_set.add. simpl.
  rewrite !grow_only_set_query_spec.
  rewrite (bool_decide_eq_true_2 (elem ∈ two_phase_set._rem_set s)) by done.
  apply andb_false_r.
Qed.

Lemma two_phase_set_add_remove_add
    {T} {EqT : EqDecision T} {CountT : Countable T} (elem : T) :
  let s := two_phase_set.add
             (two_phase_set.remove
                (two_phase_set.add two_phase_set.empty elem) elem) elem in
  elem ∈ two_phase_set._add_set s ∧ elem ∈ two_phase_set._rem_set s ∧
  logical_member s elem = false.
Proof.
  assert (Hrem : elem ∈ two_phase_set._rem_set
            (two_phase_set.remove
               (two_phase_set.add two_phase_set.empty elem) elem)).
  { unfold two_phase_set.remove, two_phase_set.add. simpl.
    rewrite grow_only_set_query_spec.
    rewrite bool_decide_eq_true_2.
    - simpl. apply elem_of_union_l, elem_of_singleton. reflexivity.
    - apply elem_of_union_l, elem_of_singleton. reflexivity. }
  split; [|split].
  - apply elem_of_union_l, elem_of_singleton. reflexivity.
  - exact Hrem.
  - by apply two_phase_set_removal_is_permanent.
Qed.

(** C4. On the sets [{1}] and [{1, 2}] every element of the first is a
    member of the second, yet [includes], and [operator<=] which forwards
    to it, hand back no boolean: the body of [includes] evaluates
    [std::includes] and has no [return].  The same holds on every pair of
    sets. *)
Theorem grow_only_set_le_returns_nothing :
  ({[1]} : gset Z) ⊆ ({[1; 2]} : gset Z) ∧
  grow_only_set.includes Z.ltb ({[1]} : gset Z) ({[1; 2]} : gset Z) = None ∧
  grow_only_set.le Z.ltb ({[1]} : gset Z) ({[1; 2]} : gset Z) = None ∧
  (∀ self other : gset Z, grow_only_set.le Z.ltb self other = None).
Proof.
  split; [|split; [|split]]; try reflexivity.
  apply union_subseteq_l.
Qed.

(** [merge] itself does produce an upper bound of both arguments, slot by
    slot and element by element. *)
Lemma gcounter_merge_upper_bound Nodes (a b : list Z) i :
  length a = Nodes → length b = Nodes → (i < Nodes)%nat →
  a !!! i ≤ gcounter.merge Nodes a b !!! i ∧
  b !!! i ≤ gcounter.merge Nodes a b !!! i.
Proof.
  intros Ha Hb Hi.
  assert (Hslot : gcounter.merge Nodes a b !!! i = Z.max (a !!! i) (b !!! i)).
  { apply list_lookup_total_correct. unfold gcounter.merge, gcounter.size.
    rewrite gcounter_merge_prefix_lookup by lia.
    by rewrite bool_decide_eq_true_2 by lia. }
  rewrite Hslot. lia.
Qed.

Lemma grow_only_set_merge_upper_bound
    {T} {EqT : EqDecision T} {CountT : Countable T} (a b : gset T) :
  a ⊆ grow_only_set.merge a b ∧ b ⊆ grow_only_set.merge a b.
Proof.
  rewrite grow_only_set_merge_union.
  split; [apply union_subseteq_l | apply union_subseteq_r].
Qed.

(** C5. [a <= merge(a,b)] is not answered with [true] by the classes' own
    [operator<=]: for the counters [[1,0,2]] and [[0,3,1]] the test of
    [gcounter] (and of [pncounter] on pairs of them) is [false], and for
    the sets [{1}] and [{2}] the test of [grow_only_set] (and of
    [two_phase_set] on pairs of them) hands back nothing. *)
Theorem le_after_merge_is_not_true :
  gcounter.le 3 [1; 0; 2] (gcounter.merge 3 [1; 0; 2] [0; 3; 1]) = false ∧
  pncounter.le 3 (pncounter.mk [1; 0; 2] [0; 0; 0])
    (pncounter.merge 3 (pncounter.mk [1; 0; 2] [0; 0; 0])
                       (pncounter.mk [0; 3; 1] [0; 0; 0])) = false ∧
  grow_only_set.le Z.ltb ({[1]} : gset Z)
    (grow_only_set.merge ({[1]} : gset Z) ({[2]} : gset Z)) = None ∧
  two_phase_set.le Z.ltb (two_phase_set.mk ({[1]} : gset Z) ∅)
    (two_phase_set.merge (two_phase_set.mk ({[1]} : gset Z) ∅)
                         (two_phase_set.mk ({[2]} : gset Z) ∅)) = None.
Proof.
  split; [apply gcounter_le_false|].
  split; [apply pncounter_le_false|].
  split; [apply grow_only_set_includes_none | apply two_phase_set_le_none].
Qed.

(** C7. After [add("x"); remove("x"); add("x")] on an empty two-phase set,
    ["x"] is in both [_add_set] and [_rem_set], so membership read as
    [adds.contains ∧ ¬removes.contains] is [false]; but [value()], whose
    body is still [// TODO], hands back no set where the difference
    [adds − removes] (here the empty set) is expected. *)
Theorem two_phase_set_value_returns_nothing :
  "x" ∈ two_phase_set._add_set
          (two_phase_set.add
             (two_phase_set.remove
                (two_phase_set.add two_phase_set.empty "x") "x") "x") ∧
  "x" ∈ two_phase_set._rem_set
          (two_phase_set.add
             (two_phase_set.remove
                (two_phase_set.add two_phase_set.empty "x") "x") "x") ∧
  logical_member
    (two_phase_set.add
       (two_phase_set.remove
          (two_phase_set.add two_phase_set.empty "x") "x") "x") "x" = false ∧
  two_phase_set.value
    (two_phase_set.add
       (two_phase_set.remove
          (two_phase_set.add two_phase_set.empty "x") "x") "x") = None.
Proof.
  destruct (two_phase_set_add_remove_add "x") as (Hadd & Hrem & Hmem).
  split; [exact Hadd|]. split; [exact Hrem|]. split; [exact Hmem|reflexivity].
Qed.

(** * Further properties of the four classes *)

(** ** [gcounter] *)

Lemma gcounter_zero_wf Nodes : gcounter.wf Nodes (gcounter.zero Nodes).
Proof.
  split; [apply gcounter_zero_length|].
  apply Forall_replicate. unfold uint32, modulus. lia.
Qed.

Lemma gcounter_increment_wf Nodes (c : list Z) index :
  gcounter.wf Nodes c → gcounter.wf Nodes (gcounter.increment Nodes c index).
Proof.
  intros [Hlen Hall]. split.
  - by rewrite gcounter_increment_length.
  - unfold gcounter.increment. case_bool_decide; [|done].
    apply Forall_insert; [done | apply wrap_range].
Qed.

Lemma gcounter_reachable_shape Nodes (c : list Z) :
  gcounter_reachable Nodes c → gcounter.wf Nodes c.
Proof.
  induction 1 as [|c index _ IH|c other _ IHc _ IHo].
  - apply gcounter_zero_wf.
  - by apply gcounter_increment_wf.
  - by apply gcounter_merge_wf.
Qed.

(** X1. Every counter reached from the zeroed one by [increment] (with any
    index) and [merge] has exactly [Nodes] slots, each within [uint32_t]. *)
Theorem gcounter_reachable_wf Nodes (c : list Z) :
  gcounter_reachable Nodes c → gcounter.wf Nodes c.
Proof. apply gcounter_reachable_shape. Qed.

Lemma gcounter_reachable_wf_witness :
  gcounter.wf 3
    (gcounter.merge 3 (gcounter.increment 3 (gcounter.zero 3) 1)
                      (gcounter.increment 3 (gcounter.zero 3) 7)).
Proof.
  apply gcounter_reachable_wf. apply gcounter_reach_merge;
    apply gcounter_reach_increment, gcounter_reach_zero.
Defined.

(** X2. [increment(index)] touches no slot but [index]: the array keeps
    its size and every other slot keeps its content. *)
Theorem gcounter_increment_frame Nodes (c : list Z) (index j : nat) :
  index ≠ j →
  length (gcounter.increment Nodes c index) = length c ∧
  gcounter.increment Nodes c index !! j = c !! j.
Proof.
  intros Hne. split.
  - apply gcounter_increment_length.
  - by apply gcounter_increment_other.
Qed.

Lemma gcounter_increment_frame_witness :
  length (gcounter.increment 3 [5; 6; 7] 1) = 3%nat ∧
  gcounter.increment 3 [5; 6; 7] 1 !! 2%nat = Some 7.
Proof. apply (gcounter_increment_frame 3 [5; 6; 7] 1 2). lia. Defined.

(** X3. From any counter of [Nodes] slots, a run of in-range increments,
    on whichever slots, moves [value()] forward by the number of calls,
    modulo [2^32]. *)
Theorem gcounter_value_after_increments Nodes (indices : list nat) (c : list Z) :
  length c = Nodes → Forall (λ i, (i < Nodes)%nat) indices →
  gcounter.value (foldl (gcounter.increment Nodes) c indices)
    = wrap (gcounter.value c + Z.of_nat (length indices)).
Proof. apply gcounter_increments_value. Qed.

Lemma gcounter_value_after_increments_witness :
  gcounter.value (foldl (gcounter.increment 3) [1; 0; 2] [0; 2; 2; 1]%nat)
    = wrap (gcounter.value [1; 0; 2] + 4).
Proof.
  apply (gcounter_value_after_increments 3 [0; 2; 2; 1]%nat [1; 0; 2]).
  - reflexivity.
  - repeat constructor.
Defined.

(** X4. Two increments commute, whatever their indices. *)
Theorem gcounter_increment_commute Nodes (c : list Z) (i j : nat) :
  gcounter.increment Nodes (gcounter.increment Nodes c i) j =
  gcounter.increment Nodes (gcounter.increment Nodes c j) i.
Proof.
  destruct (decide (i = j)) as [->|Hne]; [done|].
  unfold gcounter.increment.
  destruct (bool_decide (i < gcounter.size Nodes)%nat),
           (bool_decide (j < gcounter.size Nodes)%nat); try done.
  rewrite !list_lookup_total_insert_ne by done.
  by apply list_insert_insert_ne.
Qed.

Lemma gcounter_increment_times_out_of_range Nodes k index (c : list Z) :
  (Nodes ≤ index)%nat → gcounter.increment_times Nodes k index c = c.
Proof.
  intros Hi. induction k as [|k IH] using N.peano_ind; [done|].
  by rewrite gcounter_increment_times_succ, IH, gcounter_increment_out_of_range.
Qed.

(** Closed form of [k] increments of one slot. *)
Lemma gcounter_increment_times_slot Nodes k index (c : list Z) :
  gcounter.wf Nodes c → (index < Nodes)%nat →
  gcounter.increment_times Nodes k index c
    = <[index := wrap (c !!! index + Z.of_N k)]> c.
Proof.
  intros [Hlen Hall] Hi. unfold gcounter.size in Hlen.
  induction k as [|k IH] using N.peano_ind.
  - change (gcounter.increment_times Nodes 0 index c) with c.
    symmetry. apply list_insert_id.
    rewrite Z.add_0_r, wrap_small.
    + apply list_lookup_lookup_total_lt. lia.
    + apply (Forall_lookup_total_1 uint32); [done | lia].
  - rewrite gcounter_increment_times_succ, IH.
    unfold gcounter.increment, gcounter.size.
    rewrite bool_decide_eq_true_2 by lia.
    rewrite list_lookup_total_insert_eq by lia.
    rewrite list_insert_insert_eq, wrap_add_l. do 2 f_equal. lia.
Qed.

(** X5. Increments of a slot run around the [uint32_t] circle: [k] calls
    of [increment(index)] leave slot [index] at its old content plus [k]
    modulo [2^32] and nothing else changed, so exactly [2^32] calls bring
    the counter back to the state it started from. *)
Theorem gcounter_increment_period Nodes (k : N) (index : nat) (c : list Z) :
  gcounter.wf Nodes c → (index < Nodes)%nat →
  gcounter.increment_times Nodes k index c
    = <[index := wrap (c !!! index + Z.of_N k)]> c ∧
  gcounter.increment_times Nodes 4294967296 index c = c.
Proof.
  intros Hwf Hi. split; [by apply gcounter_increment_times_slot|].
  rewrite gcounter_increment_times_slot by done.
  destruct Hwf as [Hlen Hall]. unfold gcounter.size in Hlen.
  apply list_insert_id.
  assert (Hv : uint32 (c !!! index))
    by (apply (Forall_lookup_total_1 uint32); [done | lia]).
  change (Z.of_N 4294967296) with (1 * modulus).
  unfold wrap. rewrite Z.mod_add by (unfold modulus; lia).
  rewrite Z.mod_small by apply Hv.
  apply list_lookup_lookup_total_lt. lia.
Qed.

Lemma gcounter_increment_period_witness :
  gcounter.increment_times 2 5 1 [7; 4294967294]
    = <[1%nat := wrap ([7; 4294967294] !!! 1%nat + 5)]> [7; 4294967294] ∧
  gcounter.increment_times 2 4294967296 1 [7; 4294967294] = [7; 4294967294].
Proof.
  apply (gcounter_increment_period 2 5 1 [7; 4294967294]).
  - split; [reflexivity|]. repeat constructor; unfold uint32, modulus; lia.
  - lia.
Defined.

(** ** [gcounter::merge] as a least upper bound *)

Lemma zip_max_upper_l (a b : list Z) :
  length a = length b → Forall2 Z.le a (zip_with Z.max a b).
Proof.
  revert b. induction a as [|x a IH]; intros [|y b] Hlen; simpl in *;
    try discriminate.
  - constructor.
  - constructor; [lia | apply IH; lia].
Qed.

Lemma zip_max_least (a b c : list Z) :
  Forall2 Z.le a c → Forall2 Z.le b c → Forall2 Z.le (zip_with Z.max a b) c.
Proof.
  intros Hac. revert b. induction Hac as [|x z a c Hxz _ IH]; intros b Hbc.
  - inversion Hbc. constructor.
  - inversion Hbc as [|y z' b' c' Hyz Hbc']; subst. simpl.
    constructor; [lia | by apply IH].
Qed.

(** X6. On counters of the same size, [merge] computes the least upper
    bound for the slot-wise order: the result is slot-wise above both
    arguments and below every counter that is above both. *)
Theorem gcounter_merge_least_upper_bound Nodes (a b : list Z) :
  length a = Nodes → length b = Nodes →
  Forall2 Z.le a (gcounter.merge Nodes a b) ∧
  Forall2 Z.le b (gcounter.merge Nodes a b) ∧
  ∀ c, Forall2 Z.le a c → Forall2 Z.le b c →
       Forall2 Z.le (gcounter.merge Nodes a b) c.
Proof.
  intros Ha Hb. rewrite gcounter_merge_zip by done. split; [|split].
  - apply zip_max_upper_l. lia.
  - rewrite zip_max_commutative. apply zip_max_upper_l. lia.
  - apply zip_max_least.
Qed.

Lemma gcounter_merge_least_upper_bound_witness :
  Forall2 Z.le [1; 0; 2] (gcounter.merge 3 [1; 0; 2] [0; 3; 1]) ∧
  Forall2 Z.le [0; 3; 1] (gcounter.merge 3 [1; 0; 2] [0; 3; 1]) ∧
  ∀ c, Forall2 Z.le [1; 0; 2] c → Forall2 Z.le [0; 3; 1] c →
       Forall2 Z.le (gcounter.merge 3 [1; 0; 2] [0; 3; 1]) c.
Proof.
  apply (gcounter_merge_least_upper_bound 3 [1; 0; 2] [0; 3; 1]); reflexivity.
Defined.

Lemma zip_max_replicate_zero (a : list Z) :
  Forall uint32 a → zip_with Z.max a (replicate (length a) 0) = a.
Proof.
  induction 1 as [|x a Hx _ IH]; simpl; [done|].
  rewrite IH. f_equal. unfold uint32 in Hx. lia.
Qed.

(** X7. The zeroed counter is neutral for [merge]: merging it into a
    counter, or a counter into it, gives that counter. *)
Theorem gcounter_merge_zero Nodes (a : list Z) :
  gcounter.wf Nodes a →
  gcounter.merge Nodes a (gcounter.zero Nodes) = a ∧
  gcounter.merge Nodes (gcounter.zero Nodes) a = a.
Proof.
  intros [Hlen Hall]. unfold gcounter.size in Hlen.
  rewrite !gcounter_merge_zip by (rewrite ?gcounter_zero_length; done).
  rewrite (zip_max_commutative (gcounter.zero Nodes) a).
  unfold gcounter.zero, gcounter.size. rewrite <- Hlen.
  split; by apply zip_max_replicate_zero.
Qed.

Lemma gcounter_merge_zero_witness :
  gcounter.merge 3 [1; 0; 2] (gcounter.zero 3) = [1; 0; 2] ∧
  gcounter.merge 3 (gcounter.zero 3) [1; 0; 2] = [1; 0; 2].
Proof.
  apply gcounter_merge_zero.
  split; [reflexivity|]. repeat constructor; unfold uint32, modulus; lia.
Defined.

(** X8. Merging a stale copy into a counter that has since incremented
    slot [index] keeps the increment as long as the slot did not wrap;
    when the slot held [2^32 - 1] the increment wrapped it to 0 and the
    merge puts the stale content back. *)
Theorem gcounter_merge_stale_copy Nodes (a : list Z) (index : nat) (v : Z) :
  gcounter.wf Nodes a → a !! index = Some v →
  (v < modulus - 1 →
   gcounter.merge Nodes (gcounter.increment Nodes a index) a
     = gcounter.increment Nodes a index) ∧
  (v = modulus - 1 →
   gcounter.merge Nodes (gcounter.increment Nodes a index) a = a).
Proof.
  intros [Hlen Hall] Hv. unfold gcounter.size in Hlen.
  assert (Hr : uint32 v).
  { rewrite Forall_lookup in Hall. by apply (Hall index). }
  unfold uint32 in Hr.
  rewrite gcounter_merge_zip by (rewrite ?gcounter_increment_length; done).
  split; intros Hcase; apply list_eq; intros j; rewrite lookup_zip_with.
  - destruct (decide (index = j)) as [<-|Hne].
    + rewrite (gcounter_increment_slot Nodes a index v), Hv by done. simpl.
      rewrite wrap_small by (unfold uint32; lia). f_equal. lia.
    + rewrite gcounter_increment_other by done.
      destruct (a !! j) as [x|]; simpl; [|done]. by rewrite Z.max_id.
  - destruct (decide (index = j)) as [<-|Hne].
    + rewrite (gcounter_increment_slot Nodes a index v), Hv by done. simpl.
      subst v. reflexivity.
    + rewrite gcounter_increment_other by done.
      destruct (a !! j) as [x|]; simpl; [|done]. by rewrite Z.max_id.
Qed.

Lemma gcounter_merge_stale_copy_witness :
  (4 < modulus - 1 →
   gcounter.merge 2 (gcounter.increment 2 [4; 9] 0) [4; 9]
     = gcounter.increment 2 [4; 9] 0) ∧
  (4 = modulus - 1 →
   gcounter.merge 2 (gcounter.increment 2 [4; 9] 0) [4; 9] = [4; 9]).
Proof.
  apply (gcounter_merge_stale_copy 2 [4; 9] 0 4).
  - split; [reflexivity|]. repeat constructor; unfold uint32, modulus; lia.
  - reflexivity.
Defined.

Lemma total_zip_max (a b : list Z) :
  Forall uint32 a → Forall uint32 b → length a = length b →
  total a ≤ total (zip_with Z.max a b) ≤ total a + total b ∧
  total b ≤ total (zip_with Z.max a b).
Proof.
  intros Ha. revert b. induction Ha as [|x a Hx _ IH]; intros b Hb Hlen.
  - destruct b; [|done]. unfold total. simpl. lia.
  - destruct Hb as [|y b Hy Hb]; [done|].
    destruct (IH b Hb) as [[H1 H2] H3]; [simpl in Hlen; lia|].
    unfold total, uint32 in *. simpl. lia.
Qed.

(** X9. When the exact slot sums of two counters together stay below
    [2^32], [value()] of their merge lies between the larger of the two
    values and their sum. *)
Theorem gcounter_merge_value_bounds Nodes (a b : list Z) :
  gcounter.wf Nodes a → gcounter.wf Nodes b →
  total a + total b < modulus →
  Z.max (gcounter.value a) (gcounter.value b)
    ≤ gcounter.value (gcounter.merge Nodes a b)
    ≤ gcounter.value a + gcounter.value b.
Proof.
  intros [La Ua] [Lb Ub] Hsum. unfold gcounter.size in *.
  rewrite gcounter_merge_zip by done.
  destruct (total_zip_max a b Ua Ub ltac:(lia)) as [[H1 H2] H3].
  assert (H0a : 0 ≤ total a).
  { clear -Ua. induction Ua as [|x a Hx _ IH]; unfold total, uint32 in *;
      simpl; lia. }
  assert (H0b : 0 ≤ total b).
  { clear -Ub. induction Ub as [|x b Hx _ IH]; unfold total, uint32 in *;
      simpl; lia. }
  unfold gcounter.value. rewrite !accumulate_total.
  rewrite !wrap_small by (unfold uint32; lia). lia.
Qed.

Lemma gcounter_merge_value_bounds_witness :
  Z.max (gcounter.value [1; 0; 2]) (gcounter.value [0; 3; 1])
    ≤ gcounter.value (gcounter.merge 3 [1; 0; 2] [0; 3; 1])
    ≤ gcounter.value [1; 0; 2] + gcounter.value [0; 3; 1].
Proof.
  apply gcounter_merge_value_bounds.
  - split; [reflexivity|]. repeat constructor; unfold uint32, modulus; lia.
  - split; [reflexivity|]. repeat constructor; unfold uint32, modulus; lia.
  - reflexivity.
Defined.

(** ** [pncounter] *)

Lemma wrap_sub_l a b : wrap (wrap a - b) = wrap (a - b).
Proof. apply Zminus_mod_idemp_l. Qed.

Lemma wrap_sub_r a b : wrap (a - wrap b) = wrap (a - b).
Proof. apply Zminus_mod_idemp_r. Qed.

Lemma pncounter_value_increment Nodes (p : pncounter.t) index :
  length (pncounter._increment_counter p) = Nodes → (index < Nodes)%nat →
  pncounter.value (pncounter.increment Nodes p index)
    = wrap (pncounter.value p + 1).
Proof.
  intros Hlen Hi. destruct p as [inc dec]. simpl in Hlen.
  unfold pncounter.increment, pncounter.size.
  rewrite bool_decide_eq_true_2 by lia.
  unfold pncounter.value. simpl. change accumulate with gcounter.value.
  rewrite gcounter_increment_value by done.
  rewrite wrap_sub_l, wrap_add_l. f_equal. lia.
Qed.

Lemma pncounter_value_decrement Nodes (p : pncounter.t) index :
  length (pncounter._decrement_counter p) = Nodes → (index < Nodes)%nat →
  pncounter.value (pncounter.decrement Nodes p index)
    = wrap (pncounter.value p - 1).
Proof.
  intros Hlen Hi. destruct p as [inc dec]. simpl in Hlen.
  unfold pncounter.decrement, pncounter.size.
  rewrite bool_decide_eq_true_2 by lia.
  unfold pncounter.value. simpl. change accumulate with gcounter.value.
  rewrite gcounter_increment_value by done.
  rewrite wrap_sub_r, wrap_sub_l. f_equal. lia.
Qed.

(** X10. On a counter whose two members have [Nodes] slots, an in-range
    [increment] moves [value()] one step up and an in-range [decrement]
    one step down, both modulo [2^32]; a [decrement] after an [increment],
    on whichever slots, brings [value()] back. *)
Theorem pncounter_value_steps Nodes (p : pncounter.t) (i j : nat) :
  pncounter.wf Nodes p → (i < Nodes)%nat → (j < Nodes)%nat →
  pncounter.value (pncounter.increment Nodes p i)
    = wrap (pncounter.value p + 1) ∧
  pncounter.value (pncounter.decrement Nodes p j)
    = wrap (pncounter.value p - 1) ∧
  pncounter.value (pncounter.decrement Nodes (pncounter.increment Nodes p i) j)
    = pncounter.value p.
Proof.
  intros [[Li _] [Ld _]] Hi Hj. unfold gcounter.size in *.
  split; [by apply pncounter_value_increment|].
  split; [by apply pncounter_value_decrement|].
  rewrite pncounter_value_decrement; [|
    unfold pncounter.increment; case_bool_decide; simpl; done |done].
  rewrite pncounter_value_increment by done.
  rewrite wrap_sub_l.
  replace (pncounter.value p + 1 - 1) with (pncounter.value p) by lia.
  apply wrap_small, pncounter_value_range.
Qed.

Lemma pncounter_value_steps_witness :
  pncounter.value (pncounter.increment 2 (pncounter.mk [3; 4] [1; 0]) 0)
    = wrap (pncounter.value (pncounter.mk [3; 4] [1; 0]) + 1) ∧
  pncounter.value (pncounter.decrement 2 (pncounter.mk [3; 4] [1; 0]) 1)
    = wrap (pncounter.value (pncounter.mk [3; 4] [1; 0]) - 1) ∧
  pncounter.value
    (pncounter.decrement 2
       (pncounter.increment 2 (pncounter.mk [3; 4] [1; 0]) 0) 1)
    = pncounter.value (pncounter.mk [3; 4] [1; 0]).
Proof.
  apply pncounter_value_steps; try lia.
  split; (split; [reflexivity|]);
    repeat constructor; unfold uint32, modulus; lia.
Defined.

(** X11. Every counter reached from the zeroed one by [increment],
    [decrement] (with any index) and [merge] keeps both members at
    [Nodes] slots of [uint32_t]. *)
Theorem pncounter_reachable_wf Nodes (p : pncounter.t) :
  pncounter_reachable Nodes p → pncounter.wf Nodes p.
Proof.
  induction 1 as [|p index _ [IHi IHd]|p index _ [IHi IHd]|p other _ IHp _ IHo].
  - split; apply gcounter_zero_wf.
  - unfold pncounter.increment. case_bool_decide; [|done].
    split; simpl; [by apply gcounter_increment_wf | done].
  - unfold pncounter.decrement. case_bool_decide; [|done].
    split; simpl; [done | by apply gcounter_increment_wf].
  - by apply (merge_closed _ _ (pncounter_semilattice Nodes)).
Qed.

Lemma pncounter_reachable_wf_witness :
  pncounter.wf 2
    (pncounter.decrement 2 (pncounter.increment 2 (pncounter.zero 2) 5) 1).
Proof.
  apply pncounter_reachable_wf.
  apply pncounter_reach_decrement, pncounter_reach_increment,
    pncounter_reach_zero.
Defined.

(** X12. [increment] writes the increment-counter only and [decrement]
    the decrement-counter only, so the two commute, whatever the indices. *)
Theorem pncounter_increment_decrement_commute Nodes (p : pncounter.t) (i j : nat) :
  pncounter._decrement_counter (pncounter.increment Nodes p i)
    = pncounter._decrement_counter p ∧
  pncounter._increment_counter (pncounter.decrement Nodes p j)
    = pncounter._increment_counter p ∧
  pncounter.increment Nodes (pncounter.decrement Nodes p j) i
    = pncounter.decrement Nodes (pncounter.increment Nodes p i) j.
Proof.
  unfold pncounter.increment, pncounter.decrement.
  destruct (bool_decide (i < pncounter.size Nodes)%nat),
           (bool_decide (j < pncounter.size Nodes)%nat); done.
Qed.

(** ** [grow_only_set] *)

(** X13. [query] finds exactly what was added: nothing in a fresh set,
    the element just added, and for any other element what it found
    before the [add]. *)
Theorem grow_only_set_query_add
    {T} {EqT : EqDecision T} {CountT : Countable T} (s : gset T) (x y : T) :
  x ≠ y →
  grow_only_set.query grow_only_set.empty x = false ∧
  grow_only_set.query (grow_only_set.add s x) x = true ∧
  grow_only_set.query (grow_only_set.add s x) y = grow_only_set.query s y.
Proof.
  intros Hne. rewrite !grow_only_set_query_spec.
  unfold grow_only_set.empty, grow_only_set.add. split; [|split].
  - apply bool_decide_eq_false_2, not_elem_of_empty.
  - apply bool_decide_eq_true_2, elem_of_union_l, elem_of_singleton. done.
  - apply bool_decide_ext. rewrite elem_of_union, elem_of_singleton.
    split; [intros [Heq|Hin]; [congruence|done] | by right].
Qed.

Lemma grow_only_set_query_add_witness :
  grow_only_set.query (grow_only_set.empty : gset Z) 1 = false ∧
  grow_only_set.query (grow_only_set.add ({[5]} : gset Z) 1) 1 = true ∧
  grow_only_set.query (grow_only_set.add ({[5]} : gset Z) 1) 2
    = grow_only_set.query ({[5]} : gset Z) 2.
Proof. apply (grow_only_set_query_add ({[5]} : gset Z) 1 2). lia. Defined.

(** X14. [add] is idempotent: adding an element that [query] already
    finds changes nothing, adding one it does not find grows the set by
    exactly that element; so [add(x); add(x)] on a fresh set leaves one
    element. *)
Theorem grow_only_set_add_size
    {T} {EqT : EqDecision T} {CountT : Countable T} (s : gset T) (x : T) :
  size (grow_only_set.add s x)
    = (if grow_only_set.query s x then size s else S (size s)) ∧
  grow_only_set.add (grow_only_set.add s x) x = grow_only_set.add s x ∧
  size (grow_only_set.add (grow_only_set.add grow_only_set.empty x) x) = 1%nat.
Proof.
  rewrite grow_only_set_query_spec. unfold grow_only_set.add, grow_only_set.empty.
  split; [|split].
  - case_bool_decide as Hx.
    + f_equal. apply subseteq_union_1_L. by apply singleton_subseteq_l.
    + rewrite size_union, size_singleton; [done|].
      by apply disjoint_singleton_l.
  - by rewrite (assoc_L (∪)), (idemp_L (∪)).
  - by rewrite (assoc_L (∪)), (idemp_L (∪)), (right_id_L ∅ (∪)), size_singleton.
Qed.

(** X15. After [merge], [query] finds an element exactly when it found
    it in the receiver or finds it in the argument. *)
Theorem grow_only_set_query_merge
    {T} {EqT : EqDecision T} {CountT : Countable T} (a b : gset T) (x : T) :
  grow_only_set.query (grow_only_set.merge a b) x
    = grow_only_set.query a x || grow_only_set.query b x.
Proof.
  rewrite !grow_only_set_query_spec, grow_only_set_merge_union.
  destruct (decide (x ∈ a)) as [Ha|Ha], (decide (x ∈ b)) as [Hb|Hb].
  - rewrite !bool_decide_eq_true_2; [done..|]. by apply elem_of_union_l.
  - rewrite (bool_decide_eq_true_2 (x ∈ a)), bool_decide_eq_true_2;
      [done| |done]. by apply elem_of_union_l.
  - rewrite (bool_decide_eq_true_2 (x ∈ b)), bool_decide_eq_true_2;
      [by rewrite orb_true_r| |done]. by apply elem_of_union_r.
  - rewrite !bool_decide_eq_false_2; [done..|].
    rewrite elem_of_union. tauto.
Qed.

(** X16. The set only grows: [add] and [merge] keep every element the
    receiver had, [merge] takes in every element of its argument, and the
    merged set is the least one doing so. *)
Theorem grow_only_set_grows
    {T} {EqT : EqDecision T} {CountT : Countable T} (a b c : gset T) (x : T) :
  a ⊆ c → b ⊆ c →
  a ⊆ grow_only_set.add a x ∧
  a ⊆ grow_only_set.merge a b ∧
  b ⊆ grow_only_set.merge a b ∧
  grow_only_set.merge a b ⊆ c.
Proof.
  intros Hac Hbc. rewrite grow_only_set_merge_union. unfold grow_only_set.add.
  split; [apply union_subseteq_r|].
  split; [apply union_subseteq_l|].
  split; [apply union_subseteq_r | by apply union_least].
Qed.

Lemma grow_only_set_grows_witness :
  ({[1]} : gset Z) ⊆ grow_only_set.add {[1]} 7 ∧
  ({[1]} : gset Z) ⊆ grow_only_set.merge {[1]} {[2]} ∧
  ({[2]} : gset Z) ⊆ grow_only_set.merge {[1]} {[2]} ∧
  grow_only_set.merge ({[1]} : gset Z) {[2]} ⊆ {[1; 2]}.
Proof.
  apply (grow_only_set_grows ({[1]} : gset Z) {[2]} {[1; 2]} 7).
  - apply union_subseteq_l.
  - apply union_subseteq_r.
Defined.

(** X17. The fresh set is neutral for [merge], [add] is a merge with the
    one-element set, and adding before a merge or after it gives the same
    set. *)
Theorem grow_only_set_add_merge
    {T} {EqT : EqDecision T} {CountT : Countable T} (a b : gset T) (x : T) :
  grow_only_set.merge a grow_only_set.empty = a ∧
  grow_only_set.merge grow_only_set.empty a = a ∧
  grow_only_set.add a x
    = grow_only_set.merge a (grow_only_set.add grow_only_set.empty x) ∧
  grow_only_set.merge (grow_only_set.add a x) b
    = grow_only_set.add (grow_only_set.merge a b) x.
Proof.
  rewrite !grow_only_set_merge_union. unfold grow_only_set.add, grow_only_set.empty.
  split; [apply (right_id_L ∅ (∪))|].
  split; [apply (left_id_L ∅ (∪))|].
  split.
  - by rewrite (right_id_L ∅ (∪)), (comm_L (∪)).
  - by rewrite (assoc_L (∪)).
Qed.

(** ** [two_phase_set] *)

Lemma two_phase_set_remove_unobserved
    {T} {EqT : EqDecision T} {CountT : Countable T}
    (s : two_phase_set.t T) (x : T) :
  x ∉ two_phase_set._add_set s → two_phase_set.remove s x = s.
Proof.
  intros Hx. unfold two_phase_set.remove.
  by rewrite grow_only_set_query_spec, bool_decide_eq_false_2.
Qed.

Lemma two_phase_set_remove_observed
    {T} {EqT : EqDecision T} {CountT : Countable T}
    (s : two_phase_set.t T) (x : T) :
  x ∈ two_phase_set._add_set s →
  two_phase_set.remove s x
    = two_phase_set.mk (two_phase_set._add_set s)
                       ({[x]} ∪ two_phase_set._rem_set s).
Proof.
  intros Hx. unfold two_phase_set.remove.
  by rewrite grow_only_set_query_spec, bool_decide_eq_true_2.
Qed.

(** X18. [remove] acts only on what was added: removing an element that
    is not in [_add_set] (so any element of a fresh set) leaves the set as
    it is, and removing one that is there records it in [_rem_set] and
    leaves [_add_set] untouched. *)
Theorem two_phase_set_remove_effect
    {T} {EqT : EqDecision T} {CountT : Countable T}
    (s : two_phase_set.t T) (x : T) :
  two_phase_set.remove two_phase_set.empty x = two_phase_set.empty ∧
  (x ∉ two_phase_set._add_set s → two_phase_set.remove s x = s) ∧
  (x ∈ two_phase_set._add_set s →
   two_phase_set._add_set (two_phase_set.remove s x) = two_phase_set._add_set s ∧
   two_phase_set._rem_set (two_phase_set.remove s x)
     = {[x]} ∪ two_phase_set._rem_set s).
Proof.
  split; [|split].
  - apply two_phase_set_remove_unobserved. simpl. apply not_elem_of_empty.
  - apply two_phase_set_remove_unobserved.
  - intros Hx. by rewrite two_phase_set_remove_observed.
Qed.

Lemma two_phase_set_remove_effect_witness :
  two_phase_set.remove (two_phase_set.mk ({[1]} : gset Z) ∅) 2
    = two_phase_set.mk ({[1]} : gset Z) ∅ ∧
  two_phase_set._rem_set
    (two_phase_set.remove (two_phase_set.mk ({[1]} : gset Z) ∅) 1)
    = {[1]} ∪ ∅.
Proof.
  split.
  - apply (two_phase_set_remove_effect (two_phase_set.mk ({[1]} : gset Z) ∅) 2).
    simpl. rewrite elem_of_singleton. lia.
  - apply (two_phase_set_remove_effect (two_phase_set.mk ({[1]} : gset Z) ∅) 1).
    simpl. by apply elem_of_singleton.
Defined.

(** X19. In every set reached from the fresh one by [add], [remove] and
    [merge], whatever is in [_rem_set] is also in [_add_set]: only
    observed elements are ever removed. *)
Theorem two_phase_set_removes_observed
    {T} {EqT : EqDecision T} {CountT : Countable T} (s : two_phase_set.t T) :
  two_phase_set_reachable s →
  two_phase_set._rem_set s ⊆ two_phase_set._add_set s.
Proof.
  induction 1 as [|s x _ IH|s x _ IH|s o _ IHs _ IHo].
  - done.
  - simpl. unfold grow_only_set.add. etrans; [exact IH|]. apply union_subseteq_r.
  - destruct (decide (x ∈ two_phase_set._add_set s)) as [Hx|Hx].
    + rewrite two_phase_set_remove_observed by done. simpl.
      apply union_least; [by apply singleton_subseteq_l | done].
    + by rewrite two_phase_set_remove_unobserved.
  - simpl. rewrite !grow_only_set_merge_union.
    apply union_least.
    + etrans; [exact IHs|]. apply union_subseteq_l.
    + etrans; [exact IHo|]. apply union_subseteq_r.
Qed.

Lemma two_phase_set_removes_observed_witness :
  two_phase_set._rem_set
    (two_phase_set.remove
       (two_phase_set.add (two_phase_set.empty : two_phase_set.t Z) 1) 1)
  ⊆ two_phase_set._add_set
      (two_phase_set.remove
         (two_phase_set.add (two_phase_set.empty : two_phase_set.t Z) 1) 1).
Proof.
  apply two_phase_set_removes_observed.
  apply two_phase_set_reach_remove, two_phase_set_reach_add,
    two_phase_set_reach_empty.
Defined.

(** X20. Neither member ever shrinks: [add], [remove] and [merge] keep
    every element of [_add_set] and of [_rem_set], and [merge] also takes
    in both members of its argument.  A removal, once recorded, stays. *)
Theorem two_phase_set_members_grow
    {T} {EqT : EqDecision T} {CountT : Countable T}
    (s o : two_phase_set.t T) (x : T) :
  (two_phase_set._add_set s ⊆ two_phase_set._add_set (two_phase_set.add s x) ∧
   two_phase_set._rem_set s ⊆ two_phase_set._rem_set (two_phase_set.add s x)) ∧
  (two_phase_set._add_set s ⊆ two_phase_set._add_set (two_phase_set.remove s x) ∧
   two_phase_set._rem_set s ⊆ two_phase_set._rem_set (two_phase_set.remove s x)) ∧
  (two_phase_set._add_set s ⊆ two_phase_set._add_set (two_phase_set.merge s o) ∧
   two_phase_set._rem_set s ⊆ two_phase_set._rem_set (two_phase_set.merge s o)) ∧
  (two_phase_set._add_set o ⊆ two_phase_set._add_set (two_phase_set.merge s o) ∧
   two_phase_set._rem_set o ⊆ two_phase_set._rem_set (two_phase_set.merge s o)).
Proof.
  split; [|split; [|split]].
  - simpl. unfold grow_only_set.add. split; [apply union_subseteq_r | done].
  - destruct (decide (x ∈ two_phase_set._add_set s)) as [Hx|Hx].
    + rewrite two_phase_set_remove_observed by done. simpl.
      split; [done | apply union_subseteq_r].
    + by rewrite two_phase_set_remove_unobserved.
  - simpl. rewrite !grow_only_set_merge_union.
    split; apply union_subseteq_l.
  - simpl. rewrite !grow_only_set_merge_union.
    split; apply union_subseteq_r.
Qed.

(** X21. [add] and [remove] are idempotent, and an [add] and a [remove]
    of two different elements commute. *)
Theorem two_phase_set_add_remove_commute
    {T} {EqT : EqDecision T} {CountT : Countable T}
    (s : two_phase_set.t T) (x y : T) :
  x ≠ y →
  two_phase_set.add (two_phase_set.add s x) x = two_phase_set.add s x ∧
  two_phase_set.remove (two_phase_set.remove s x) x = two_phase_set.remove s x ∧
  two_phase_set.remove (two_phase_set.add s x) y
    = two_phase_set.add (two_phase_set.remove s y) x.
Proof.
  intros Hne. destruct s as [adds rems]. split; [|split].
  - unfold two_phase_set.add, grow_only_set.add. simpl.
    by rewrite (assoc_L (∪)), (idemp_L (∪)).
  - destruct (decide (x ∈ adds)) as [Hx|Hx].
    + rewrite (two_phase_set_remove_observed (two_phase_set.mk adds rems))
        by done. simpl.
      rewrite two_phase_set_remove_observed by done. simpl.
      by rewrite (assoc_L (∪)), (idemp_L (∪)).
    + by rewrite !(two_phase_set_remove_unobserved (two_phase_set.mk adds rems)).
  - destruct (decide (y ∈ adds)) as [Hy|Hy].
    + rewrite (two_phase_set_remove_observed (two_phase_set.mk adds rems))
        by done.
      rewrite two_phase_set_remove_observed; [done|].
      simpl. by apply elem_of_union_r.
    + rewrite (two_phase_set_remove_unobserved (two_phase_set.mk adds rems))
        by done.
      apply two_phase_set_remove_unobserved. simpl.
      unfold grow_only_set.add. rewrite elem_of_union, elem_of_singleton.
      intros [Heq|Hin]; [congruence | done].
Qed.

Lemma two_phase_set_add_remove_commute_witness :
  two_phase_set.remove
    (two_phase_set.add (two_phase_set.mk ({[2]} : gset Z) ∅) 1) 2
  = two_phase_set.add
      (two_phase_set.remove (two_phase_set.mk ({[2]} : gset Z) ∅) 2) 1.
Proof.
  apply (two_phase_set_add_remove_commute
           (two_phase_set.mk ({[2]} : gset Z) ∅) 1 2). lia.
Defined.

(** X22. On one element the order of [add] and [remove] matters: when
    [x] has not been added yet, [remove(x); add(x)] records no removal,
    while [add(x); remove(x)] records [x] in [_rem_set]. *)
Theorem two_phase_set_remove_before_add
    {T} {EqT : EqDecision T} {CountT : Countable T}
    (s : two_phase_set.t T) (x : T) :
  x ∉ two_phase_set._add_set s →
  two_phase_set._rem_set (two_phase_set.add (two_phase_set.remove s x) x)
    = two_phase_set._rem_set s ∧
  two_phase_set._rem_set (two_phase_set.remove (two_phase_set.add s x) x)
    = {[x]} ∪ two_phase_set._rem_set s.
Proof.
  intros Hx. split.
  - by rewrite two_phase_set_remove_unobserved.
  - rewrite two_phase_set_remove_observed; [done|].
    simpl. apply elem_of_union_l. by apply elem_of_singleton.
Qed.

Lemma two_phase_set_remove_before_add_witness :
  two_phase_set._rem_set
    (two_phase_set.add
       (two_phase_set.remove (two_phase_set.empty : two_phase_set.t Z) 1) 1)
    = two_phase_set._rem_set (two_phase_set.empty : two_phase_set.t Z) ∧
  two_phase_set._rem_set
    (two_phase_set.remove
       (two_phase_set.add (two_phase_set.empty : two_phase_set.t Z) 1) 1)
    = {[1]} ∪ two_phase_set._rem_set (two_phase_set.empty : two_phase_set.t Z).
Proof.
  apply (two_phase_set_remove_before_add
           (two_phase_set.empty : two_phase_set.t Z) 1).
  simpl. apply not_elem_of_empty.
Defined.

(** ** Replicas of a [gcounter] *)

(** X23. Two replicas that start from the same counter and increment two
    different slots, neither of them at [2^32 - 1], converge: merging
    them in either direction gives the counter with both increments. *)
Theorem gcounter_concurrent_increments Nodes (c : list Z) (i j : nat) :
  gcounter.wf Nodes c → (i < Nodes)%nat → (j < Nodes)%nat → i ≠ j →
  c !!! i < modulus - 1 → c !!! j < modulus - 1 →
  gcounter.merge Nodes (gcounter.increment Nodes c i)
                       (gcounter.increment Nodes c j)
    = gcounter.increment Nodes (gcounter.increment Nodes c i) j ∧
  gcounter.merge Nodes (gcounter.increment Nodes c j)
                       (gcounter.increment Nodes c i)
    = gcounter.increment Nodes (gcounter.increment Nodes c i) j.
Proof.
  intros [Hlen Hall] Hi Hj Hne Hvi Hvj. unfold gcounter.size in Hlen.
  assert (Hci : c !! i = Some (c !!! i))
    by (apply list_lookup_lookup_total_lt; lia).
  assert (Hcj : c !! j = Some (c !!! j))
    by (apply list_lookup_lookup_total_lt; lia).
  assert (Hri : uint32 (c !!! i))
    by (apply (Forall_lookup_total_1 uint32); [done | lia]).
  assert (Hrj : uint32 (c !!! j))
    by (apply (Forall_lookup_total_1 uint32); [done | lia]).
  unfold uint32 in Hri, Hrj.
  assert (Hmerge : gcounter.merge Nodes (gcounter.increment Nodes c i)
                     (gcounter.increment Nodes c j)
                   = gcounter.increment Nodes (gcounter.increment Nodes c i) j).
  { rewrite gcounter_merge_zip by (rewrite ?gcounter_increment_length; done).
    apply list_eq; intros k. rewrite lookup_zip_with.
    assert (Hne' : j ≠ i) by congruence.
    destruct (decide (k = i)) as [->|Hki]; [|destruct (decide (k = j)) as [->|Hkj]].
    - rewrite !(gcounter_increment_other Nodes _ j i) by done.
      rewrite (gcounter_increment_slot Nodes c i (c !!! i)), Hci by done.
      simpl. rewrite wrap_small by (unfold uint32; lia). f_equal. lia.
    - rewrite (gcounter_increment_other Nodes c i j) by done.
      rewrite (gcounter_increment_slot Nodes c j (c !!! j)) by done.
      rewrite (gcounter_increment_slot Nodes _ j (c !!! j));
        [|by rewrite gcounter_increment_length
         |by rewrite gcounter_increment_other].
      rewrite Hcj. simpl. rewrite wrap_small by (unfold uint32; lia).
      f_equal. lia.
    - assert (Hik : i ≠ k) by congruence. assert (Hjk : j ≠ k) by congruence.
      rewrite !gcounter_increment_other by done.
      destruct (c !! k) as [x|]; simpl; [|done]. by rewrite Z.max_id. }
  split; [exact Hmerge|].
  rewrite <- Hmerge.
  rewrite !gcounter_merge_zip by (rewrite ?gcounter_increment_length; done).
  apply zip_max_commutative.
Qed.

Lemma gcounter_concurrent_increments_witness :
  gcounter.merge 3 (gcounter.increment 3 [1; 0; 2] 0)
                   (gcounter.increment 3 [1; 0; 2] 2)
    = gcounter.increment 3 (gcounter.increment 3 [1; 0; 2] 0) 2 ∧
  gcounter.merge 3 (gcounter.increment 3 [1; 0; 2] 2)
                   (gcounter.increment 3 [1; 0; 2] 0)
    = gcounter.increment 3 (gcounter.increment 3 [1; 0; 2] 0) 2.
Proof.
  apply (gcounter_concurrent_increments 3 [1; 0; 2] 0 2).
  - split; [reflexivity|]. repeat constructor; unfold uint32, modulus; lia.
  - lia.
  - lia.
  - lia.
  - reflexivity.
  - reflexivity.
Defined.





(** ** States of a [two_phase_set] *)




